(** * Periodic cell kernel of micmec ([src/micmec/pes/cell.c])

    Shallow embedding of the C cell kernel.  A [double] is modelled by a type
    [F] with the operations of the class [Double]; the reals [R] give the
    exact-arithmetic reading of the code and the primitive IEEE-754 binary64
    floats give the hardware reading (used where the claim is about IEEE
    behaviour).  The 9-element arrays [rvecs]/[gvecs] and the caller's output
    buffers are lists read with [nth]; the 3-element [delta], [cart],
    [center] and [r] arguments are records with one field per slot.  A C
    [long] or [int] is a [Z].  A function that writes through a pointer
    argument returns the new contents of that argument; an argument it only
    reads is not returned. *)

From Stdlib Require Import ZArith List Reals Lra Lia.
From Stdlib Require PrimFloat.
Import ListNotations.

(** ** Numbers *)

Class Double (F : Type) := {
  dzero : F;
  done : F;
  dadd : F -> F -> F;
  dsub : F -> F -> F;
  dmul : F -> F -> F;
  ddiv : F -> F -> F;
  dsqrt : F -> F;
  dfabs : F -> F;
  (** C's [x > y] *)
  dgt : F -> F -> bool
}.

Declare Scope dbl_scope.
Delimit Scope dbl_scope with D.
Infix "+" := dadd : dbl_scope.
Infix "-" := dsub : dbl_scope.
Infix "*" := dmul : dbl_scope.
Infix "/" := ddiv : dbl_scope.

#[export] Instance Double_R : Double R := {
  dzero := 0%R;
  done := 1%R;
  dadd := Rplus;
  dsub := Rminus;
  dmul := Rmult;
  ddiv := Rdiv;
  dsqrt := sqrt;
  dfabs := Rabs;
  dgt x y := if Rlt_dec y x then true else false
}.

#[export] Instance Double_float : Double PrimFloat.float := {
  dzero := PrimFloat.zero;
  done := PrimFloat.one;
  dadd := PrimFloat.add;
  dsub := PrimFloat.sub;
  dmul := PrimFloat.mul;
  ddiv := PrimFloat.div;
  dsqrt := PrimFloat.sqrt;
  dfabs := PrimFloat.abs;
  dgt x y := PrimFloat.ltb y x
}.

(** C's [ceil] on the reals: the least integer not below [x]. *)
Definition Rceil (x : R) : Z := (- Int_part (- x))%Z.

(** ** Data model *)

(** A 3-slot C array. *)
Record arr3 (A : Type) := A3 { e0 : A; e1 : A; e2 : A }.
Arguments A3 {A} _ _ _.
Arguments e0 {A} _.
Arguments e1 {A} _.
Arguments e2 {A} _.

(** [cell_type] of [cell.h]. *)
Record cell_type (F : Type) := mk_cell {
  nvec : Z;
  rvecs : list F;
  gvecs : list F;
  rspacings : list F;
  gspacings : list F;
  volume : F
}.
Arguments mk_cell {F} _ _ _ _ _ _.
Arguments nvec {F} _.
Arguments rvecs {F} _.
Arguments gvecs {F} _.
Arguments rspacings {F} _.
Arguments gspacings {F} _.
Arguments volume {F} _.

Section Update.
Context {F : Type} `{Double F}.
Local Open Scope dbl_scope.

(** [a[i]] *)
Definition at_ (a : list F) (i : nat) : F := nth i a dzero.

(** [cell_update]: every field is written except [volume] when the
    [switch] on [nvec] has no matching case. *)
Definition cell_update (cell : cell_type F) (rvecs gvecs : list F) (nvec : Z)
  : cell_type F :=
  let r := at_ rvecs in
  let g := at_ gvecs in
  (* Copy everything. *)
  let rv := map r (seq 0 9) in
  let gv := map g (seq 0 9) in
  (* Compute the spacings. *)
  let rsp := map (fun i => done / dsqrt (g (3*i)%nat * g (3*i)%nat
                   + g (3*i+1)%nat * g (3*i+1)%nat + g (3*i+2)%nat * g (3*i+2)%nat))
                 (seq 0 3) in
  let gsp := map (fun i => done / dsqrt (r (3*i)%nat * r (3*i)%nat
                   + r (3*i+1)%nat * r (3*i+1)%nat + r (3*i+2)%nat * r (3*i+2)%nat))
                 (seq 0 3) in
  (* Compute the volume. *)
  let vol :=
    match nvec with
    | 0%Z => dzero
    | 1%Z => dsqrt (r 0 * r 0 + r 1 * r 1 + r 2 * r 2)
    | 2%Z =>
        let tmp := r 0 * r 3 + r 1 * r 4 + r 2 * r 5 in
        let tmp := (r 0 * r 0 + r 1 * r 1 + r 2 * r 2) *
                   (r 3 * r 3 + r 4 * r 4 + r 5 * r 5) - tmp * tmp in
        if dgt tmp dzero then dsqrt tmp else dzero
    | 3%Z =>
        dfabs (r 0 * (r 4 * r 8 - r 5 * r 7) +
               r 1 * (r 5 * r 6 - r 3 * r 8) +
               r 2 * (r 3 * r 7 - r 4 * r 6))
    | _ => volume cell
    end in
  mk_cell nvec rv gv rsp gsp vol.

(** Writing [dst[i] = v]; an index past the end of the list is outside the
    caller's buffer, where the list is left as it is. *)
Fixpoint upd {A} (dst : list A) (i : nat) (v : A) : list A :=
  match dst, i with
  | [], _ => []
  | _ :: t, O => v :: t
  | x :: t, S i => x :: upd t i v
  end.

(** [for (i=0; i<n; i++) dst[i] = src[i];] *)
Definition copy_loop (n : Z) (src dst : list F) : list F :=
  fold_left (fun d i => upd d i (at_ src i)) (seq 0 (Z.to_nat n)) dst.

Definition cell_copy_rvecs (cell : cell_type F) (dst : list F) (full : bool) :=
  let n := if full then 9%Z else (nvec cell * 3)%Z in
  copy_loop n (rvecs cell) dst.

Definition cell_copy_gvecs (cell : cell_type F) (dst : list F) (full : bool) :=
  let n := if full then 9%Z else (nvec cell * 3)%Z in
  copy_loop n (gvecs cell) dst.

Definition cell_copy_rspacings (cell : cell_type F) (dst : list F) (full : bool) :=
  let n := if full then 3%Z else nvec cell in
  copy_loop n (rspacings cell) dst.

Definition cell_copy_gspacings (cell : cell_type F) (dst : list F) (full : bool) :=
  let n := if full then 3%Z else nvec cell in
  copy_loop n (gspacings cell) dst.

(** [cell_get_nvec] and [cell_get_volume]. *)
Definition cell_get_nvec (cell : cell_type F) : Z := nvec cell.
Definition cell_get_volume (cell : cell_type F) : F := volume cell.

End Update.

(** ** The read-side kernels, on the reals

    From here on a [double] is a real number: [ceil] is [Rceil] (its value
    as a [double] is [IZR (Rceil x)]), and the conversion of an integral
    [double] to [long] is exact. *)

Local Open Scope R_scope.

(** [cell_mic], with the translation counts [x] of the three unrolled
    blocks recorded next to the new [delta] (0 for a block that does not
    run). *)
Definition cell_mic_trace (delta : arr3 R) (cell : cell_type R)
  : arr3 R * arr3 Z :=
  let nvec := nvec cell in
  if (nvec =? 0)%Z then (delta, A3 0%Z 0%Z 0%Z) else
  let rv := at_ (rvecs cell) in
  let gv := at_ (gvecs cell) in
  let x0 := Rceil (gv 0%nat * e0 delta + gv 1%nat * e1 delta + gv 2%nat * e2 delta - 0.5) in
  let delta := A3 (e0 delta - IZR x0 * rv 0%nat)
                  (e1 delta - IZR x0 * rv 1%nat)
                  (e2 delta - IZR x0 * rv 2%nat) in
  if (nvec =? 1)%Z then (delta, A3 x0 0%Z 0%Z) else
  let x1 := Rceil (gv 3%nat * e0 delta + gv 4%nat * e1 delta + gv 5%nat * e2 delta - 0.5) in
  let delta := A3 (e0 delta - IZR x1 * rv 3%nat)
                  (e1 delta - IZR x1 * rv 4%nat)
                  (e2 delta - IZR x1 * rv 5%nat) in
  if (nvec =? 2)%Z then (delta, A3 x0 x1 0%Z) else
  let x2 := Rceil (gv 6%nat * e0 delta + gv 7%nat * e1 delta + gv 8%nat * e2 delta - 0.5) in
  let delta := A3 (e0 delta - IZR x2 * rv 6%nat)
                  (e1 delta - IZR x2 * rv 7%nat)
                  (e2 delta - IZR x2 * rv 8%nat) in
  (delta, A3 x0 x1 x2).

(** [cell_mic]: the new contents of [delta]. *)
Definition cell_mic (delta : arr3 R) (cell : cell_type R) : arr3 R :=
  fst (cell_mic_trace delta cell).

(** [cell_to_center]: the new contents of [center]; [cart] is only read. *)
Definition cell_to_center (cart : arr3 R) (cell : cell_type R)
  (center : arr3 Z) : arr3 Z :=
  let nvec := nvec cell in
  if (nvec =? 0)%Z then center else
  let gv := at_ (gvecs cell) in
  let center := A3 (- Rceil (gv 0%nat * e0 cart + gv 1%nat * e1 cart + gv 2%nat * e2 cart - 0.5))%Z
                   (e1 center) (e2 center) in
  if (nvec =? 1)%Z then center else
  let center := A3 (e0 center)
                   (- Rceil (gv 3%nat * e0 cart + gv 4%nat * e1 cart + gv 5%nat * e2 cart - 0.5))%Z
                   (e2 center) in
  if (nvec =? 2)%Z then center else
  A3 (e0 center) (e1 center)
     (- Rceil (gv 6%nat * e0 cart + gv 7%nat * e1 cart + gv 8%nat * e2 cart - 0.5))%Z.

(** [cell_add_vec]: the new contents of [delta]; [r] is only read. *)
Definition cell_add_vec (delta : arr3 R) (cell : cell_type R) (r : arr3 Z)
  : arr3 R :=
  let nvec := nvec cell in
  if (nvec =? 0)%Z then delta else
  let rv := at_ (rvecs cell) in
  let delta := A3 (e0 delta + IZR (e0 r) * rv 0%nat)
                  (e1 delta + IZR (e0 r) * rv 1%nat)
                  (e2 delta + IZR (e0 r) * rv 2%nat) in
  if (nvec =? 1)%Z then delta else
  let delta := A3 (e0 delta + IZR (e1 r) * rv 3%nat)
                  (e1 delta + IZR (e1 r) * rv 4%nat)
                  (e2 delta + IZR (e1 r) * rv 5%nat) in
  if (nvec =? 2)%Z then delta else
  A3 (e0 delta + IZR (e2 r) * rv 6%nat)
     (e1 delta + IZR (e2 r) * rv 7%nat)
     (e2 delta + IZR (e2 r) * rv 8%nat).

(** [cell_to_frac]: the new contents of [frac], all three slots, whatever
    [nvec]. *)
Definition cell_to_frac (cell : cell_type R) (cart : arr3 R) : arr3 R :=
  let gv := at_ (gvecs cell) in
  A3 (gv 0%nat * e0 cart + gv 1%nat * e1 cart + gv 2%nat * e2 cart)
     (gv 3%nat * e0 cart + gv 4%nat * e1 cart + gv 5%nat * e2 cart)
     (gv 6%nat * e0 cart + gv 7%nat * e1 cart + gv 8%nat * e2 cart).

(** ** Vectors, as the spec speaks of them *)

Definition dot (a b : arr3 R) : R := e0 a * e0 b + e1 a * e1 b + e2 a * e2 b.
Definition vsub (a b : arr3 R) : arr3 R := A3 (e0 a - e0 b) (e1 a - e1 b) (e2 a - e2 b).
Definition vscale (t : R) (a : arr3 R) : arr3 R := A3 (t * e0 a) (t * e1 a) (t * e2 a).
Definition cross (a b : arr3 R) : arr3 R :=
  A3 (e1 a * e2 b - e2 a * e1 b) (e2 a * e0 b - e0 a * e2 b) (e0 a * e1 b - e1 a * e0 b).

(** Row [k] of a 3x3 row-major matrix. *)
Definition row (m : list R) (k : nat) : arr3 R :=
  A3 (at_ m (3 * k)) (at_ m (3 * k + 1)) (at_ m (3 * k + 2)).

Definition vadd (a b : arr3 R) : arr3 R := A3 (e0 a + e0 b) (e1 a + e1 b) (e2 a + e2 b).
Definition vzero : arr3 R := A3 0 0 0.

(** [sum (k in ks) cnt k * rvecs[k]]. *)
Definition lin (c : cell_type R) (cnt : nat -> Z) (ks : list nat) : arr3 R :=
  fold_right (fun k acc => vadd (vscale (IZR (cnt k)) (row (rvecs c) k)) acc) vzero ks.

(** Subtracting [cnt k * rvecs[k]] for each [k] of [ks] in turn. *)
Definition sub_seq (c : cell_type R) (cnt : nat -> Z) (ks : list nat) (d : arr3 R)
  : arr3 R :=
  fold_left (fun d k => vsub d (vscale (IZR (cnt k)) (row (rvecs c) k))) ks d.

(** The cell with its [nvec] field replaced. *)
Definition with_nvec {F} (c : cell_type F) (n : Z) : cell_type F :=
  mk_cell n (rvecs c) (gvecs c) (rspacings c) (gspacings c) (volume c).

(** Slotwise sum of two [long] 3-arrays. *)
Definition zadd3 (a b : arr3 Z) : arr3 Z :=
  A3 (e0 a + e0 b)%Z (e1 a + e1 b)%Z (e2 a + e2 b)%Z.

(** The sequential per-direction reduction as the spec words it, for a
    given rounding [round] of the fractional projection [f]: for each
    active direction [k] in index order, [delta -= round(gvecs[k].delta) *
    rvecs[k]]. *)
Definition mic_dir (round : R -> Z) (c : cell_type R) (d : arr3 R) (k : nat)
  : arr3 R :=
  vsub d (vscale (IZR (round (dot (row (gvecs c) k) d))) (row (rvecs c) k)).

Definition mic_seq (round : R -> Z) (c : cell_type R) (d : arr3 R) : arr3 R :=
  fold_left (mic_dir round c) (seq 0 (Z.to_nat (nvec c))) d.

(** Rounding to the nearest integer with the half-way case resolved toward
    the ceiling: [floor (f + 1/2)]. *)
Definition round_half_up (f : R) : Z := Int_part (f + 0.5).

(** The count the code computes: [ceil (f - 0.5)]. *)
Definition ceil_half (f : R) : Z := Rceil (f - 0.5).

(** The volume as the spec words it, from rows a, b, c of [rvecs]. *)
Definition volume_spec (rv : list R) (n : Z) : R :=
  let a := row rv 0 in
  let b := row rv 1 in
  let c := row rv 2 in
  match n with
  | 0%Z => 0
  | 1%Z => sqrt (dot a a)
  | 2%Z => sqrt (Rmax 0 (dot a a * dot b b - dot a b * dot a b))
  | 3%Z => Rabs (dot a (cross b c))
  | _ => 0
  end.

(** ** Lemmas on [Int_part] and [Rceil] *)

Lemma Int_part_unique (x : R) (z : Z) :
  IZR z <= x < IZR z + 1 -> Int_part x = z.
Proof.
  intros [H1 H2].
  destruct (base_Int_part x) as [B1 B2].
  assert (A : IZR (Int_part x) - IZR z < 1) by lra.
  assert (A' : IZR z - IZR (Int_part x) < 1) by lra.
  rewrite <- minus_IZR in A, A'.
  apply lt_IZR in A; apply lt_IZR in A'. lia.
Qed.

Lemma Rceil_spec (x : R) : IZR (Rceil x) - 1 < x <= IZR (Rceil x).
Proof.
  unfold Rceil. rewrite opp_IZR.
  destruct (base_Int_part (- x)) as [B1 B2]. lra.
Qed.

Lemma Rceil_unique (x : R) (z : Z) : IZR z - 1 < x <= IZR z -> Rceil x = z.
Proof.
  intros H. unfold Rceil.
  rewrite (Int_part_unique (- x) (- z)); [lia|].
  rewrite opp_IZR. lra.
Qed.

Lemma ceil_half_nearest (f : R) :
  f - 0.5 <= IZR (ceil_half f) < f + 0.5.
Proof. unfold ceil_half. pose proof (Rceil_spec (f - 0.5)). lra. Qed.

(** A projection in (-1/2, 1/2] needs no translation. *)
Lemma ceil_half_small (f : R) : -0.5 < f <= 0.5 -> Rceil (f - 0.5) = 0%Z.
Proof. intros H. apply Rceil_unique. simpl. lra. Qed.

Lemma ceil_half_after (f : R) :
  -0.5 < f - IZR (Rceil (f - 0.5)) <= 0.5.
Proof. pose proof (Rceil_spec (f - 0.5)). lra. Qed.

(** ** Concrete cells *)

(** The cubic cell of side 10 of the spec, built by [cell_update]. *)
Definition cube10 (c : cell_type R) : cell_type R :=
  cell_update c [10;0;0; 0;10;0; 0;0;10] [/10;0;0; 0;/10;0; 0;0;/10] 3.

(** A one-dimensional unit cell along x. *)
Definition line1 : cell_type R :=
  mk_cell 1%Z [1;0;0; 0;0;0; 0;0;0] [1;0;0; 0;0;0; 0;0;0] [1;1;1] [1;1;1] 1.

(** ** C1: the volume computed by [cell_update] *)

(** C1: for [nvec] in {0,1,2,3}, the volume stored by [cell_update] is 0,
    the norm of row 0, [sqrt (max 0 (|a|^2 |b|^2 - (a.b)^2))] or the absolute
    scalar triple product of rows 0,1,2, and it is non-negative. *)
Theorem cell_update_volume (c : cell_type R) (rv gv : list R) (n : Z) :
  (0 <= n <= 3)%Z ->
  volume (cell_update c rv gv n) = volume_spec rv n /\
  0 <= volume (cell_update c rv gv n).
Proof.
  intros Hn.
  assert (E : n = 0%Z \/ n = 1%Z \/ n = 2%Z \/ n = 3%Z) by lia.
  destruct E as [-> | [-> | [-> | ->]]]; cbn -[sqrt Rabs Rmax].
  - split; lra.
  - split; [unfold dot; simpl; reflexivity | apply sqrt_pos].
  - unfold dot; simpl.
    set (t := (at_ rv 0 * at_ rv 0 + at_ rv 1 * at_ rv 1 + at_ rv 2 * at_ rv 2) *
              (at_ rv 3 * at_ rv 3 + at_ rv 4 * at_ rv 4 + at_ rv 5 * at_ rv 5) -
              (at_ rv 0 * at_ rv 3 + at_ rv 1 * at_ rv 4 + at_ rv 2 * at_ rv 5) *
              (at_ rv 0 * at_ rv 3 + at_ rv 1 * at_ rv 4 + at_ rv 2 * at_ rv 5)).
    destruct (Rlt_dec 0 t) as [Hp | Hp].
    + rewrite Rmax_right by lra. split; [reflexivity | apply sqrt_pos].
    + rewrite Rmax_left by lra. rewrite sqrt_0. split; lra.
  - split; [| apply Rabs_pos].
    unfold dot, cross; simpl. f_equal; ring.
Qed.

Lemma cell_update_volume_witness :
  (0 <= 3 <= 3)%Z /\
  volume (cell_update line1 [10;0;0; 0;10;0; 0;0;10] [/10;0;0; 0;/10;0; 0;0;/10] 3)
    = volume_spec [10;0;0; 0;10;0; 0;0;10] 3 /\
  0 <= volume (cell_update line1 [10;0;0; 0;10;0; 0;0;10] [/10;0;0; 0;/10;0; 0;0;/10] 3).
Proof.
  split; [lia |].
  apply (cell_update_volume line1 [10;0;0; 0;10;0; 0;0;10]
           [/10;0;0; 0;/10;0; 0;0;/10] 3). lia.
Defined.

(** The spec's scenario: the cube of side 10 has volume 1000. *)
Example cube10_volume (c : cell_type R) : volume (cube10 c) = 1000.
Proof. cbn -[Rabs]. rewrite Rabs_pos_eq; lra. Qed.

(** ** C2: the Displacement Reducer *)

(** [cell_mic] is the sequential reduction of [mic_seq] with the count
    [ceil (f - 0.5)]. *)
Lemma cell_mic_seq (c : cell_type R) (d : arr3 R) :
  (1 <= nvec c <= 3)%Z -> cell_mic d c = mic_seq ceil_half c d.
Proof.
  intros Hn. destruct c as [n rv gv rs gs vol]; simpl in Hn.
  assert (E : n = 1%Z \/ n = 2%Z \/ n = 3%Z) by lia.
  destruct E as [-> | [-> | ->]]; reflexivity.
Qed.

(** C2 (as amended): for [nvec] in {1,2,3}, [cell_mic] reduces [delta]
    direction by direction in index order, each on the already-updated
    [delta], subtracting [t * rvecs[k]] with [t = ceil (f - 0.5)] for
    [f = gvecs[k].delta]; directions past [nvec] are not touched.  That [t]
    lies in [[f - 1/2, f + 1/2)]: the nearest integer, the half-way case
    going to the lower one. *)
Theorem cell_mic_sequential (c : cell_type R) (d : arr3 R) :
  (1 <= nvec c <= 3)%Z ->
  cell_mic d c =
    fold_left (fun d k =>
                 let f := dot (row (gvecs c) k) d in
                 let t := Rceil (f - 0.5) in
                 vsub d (vscale (IZR t) (row (rvecs c) k)))
              (seq 0 (Z.to_nat (nvec c))) d /\
  (forall f, f - 0.5 <= IZR (Rceil (f - 0.5)) < f + 0.5).
Proof.
  intros Hn. split.
  - rewrite cell_mic_seq by exact Hn. reflexivity.
  - intros f. exact (ceil_half_nearest f).
Qed.

Lemma cell_mic_sequential_witness :
  (1 <= nvec line1 <= 3)%Z /\
  cell_mic (A3 0.7 0 0) line1 =
    fold_left (fun d k =>
                 let f := dot (row (gvecs line1) k) d in
                 let t := Rceil (f - 0.5) in
                 vsub d (vscale (IZR t) (row (rvecs line1) k)))
              (seq 0 (Z.to_nat (nvec line1))) (A3 0.7 0 0) /\
  (forall f, f - 0.5 <= IZR (Rceil (f - 0.5)) < f + 0.5).
Proof.
  split; [simpl; lia |].
  apply (cell_mic_sequential line1 (A3 0.7 0 0)). simpl; lia.
Defined.

(** C2 (counterexample): at [f = 1/2] the code's [ceil (f - 0.5)] is 0,
    while the nearest integer with the half-way case resolved toward the
    ceiling is 1; on the unit cell along x, [cell_mic] leaves
    [delta = (1/2, 0, 0)] as it is, where that rounding would give
    [(-1/2, 0, 0)]. *)
Lemma cell_mic_half_way_cex :
  ceil_half 0.5 = 0%Z /\ round_half_up 0.5 = 1%Z /\
  cell_mic (A3 0.5 0 0) line1 = A3 0.5 0 0 /\
  mic_seq round_half_up line1 (A3 0.5 0 0) = A3 (-0.5) 0 0 /\
  cell_mic (A3 0.5 0 0) line1 <> mic_seq round_half_up line1 (A3 0.5 0 0).
Proof.
  assert (C : forall x, x = 0 -> Rceil x = 0%Z)
    by (intros x ->; apply Rceil_unique; simpl; lra).
  assert (I1 : forall x, x = 1 -> Int_part x = 1%Z)
    by (intros x ->; apply Int_part_unique; simpl; lra).
  assert (M : cell_mic (A3 0.5 0 0) line1 = A3 0.5 0 0).
  { unfold cell_mic, cell_mic_trace, line1, at_; simpl.
    rewrite C by lra. f_equal; simpl; ring. }
  assert (S : mic_seq round_half_up line1 (A3 0.5 0 0) = A3 (-0.5) 0 0).
  { unfold mic_seq, mic_dir, round_half_up, line1, row, dot, vsub, vscale, at_;
      simpl.
    rewrite I1 by lra. f_equal; simpl; lra. }
  split; [| split; [| split; [| split]]].
  - unfold ceil_half. apply C. lra.
  - unfold round_half_up. apply I1. lra.
  - exact M.
  - exact S.
  - rewrite M, S. intros E. injection E. lra.
Qed.

(** ** C3: [nvec] outside {0,1,2,3} *)

(** C3 (as amended): [cell_update] has no failure path.  For [nvec] outside
    {0,1,2,3} it still stores [nvec] and the nine entries of [rvecs] and
    [gvecs], recomputes the spacings exactly as for any other [nvec], and
    keeps the previous [volume] (the [switch] has no default). *)
Theorem cell_update_bad_nvec {F : Type} `{Double F}
  (c : cell_type F) (rv gv : list F) (n : Z) :
  ~ (0 <= n <= 3)%Z ->
  nvec (cell_update c rv gv n) = n /\
  rvecs (cell_update c rv gv n) = map (at_ rv) (seq 0 9) /\
  gvecs (cell_update c rv gv n) = map (at_ gv) (seq 0 9) /\
  rspacings (cell_update c rv gv n) = rspacings (cell_update c rv gv 0) /\
  gspacings (cell_update c rv gv n) = gspacings (cell_update c rv gv 0) /\
  volume (cell_update c rv gv n) = volume c.
Proof.
  intros Hn. repeat split.
  destruct n as [| p | p]; [lia | | reflexivity].
  destruct p as [[] | [] |]; try reflexivity; lia.
Qed.

Lemma cell_update_bad_nvec_witness :
  ~ (0 <= 4 <= 3)%Z /\
  nvec (cell_update line1 [1;0;0; 0;1;0; 0;0;1] [1;0;0; 0;1;0; 0;0;1] 4) = 4%Z /\
  rvecs (cell_update line1 [1;0;0; 0;1;0; 0;0;1] [1;0;0; 0;1;0; 0;0;1] 4)
    = map (at_ [1;0;0; 0;1;0; 0;0;1]) (seq 0 9) /\
  gvecs (cell_update line1 [1;0;0; 0;1;0; 0;0;1] [1;0;0; 0;1;0; 0;0;1] 4)
    = map (at_ [1;0;0; 0;1;0; 0;0;1]) (seq 0 9) /\
  rspacings (cell_update line1 [1;0;0; 0;1;0; 0;0;1] [1;0;0; 0;1;0; 0;0;1] 4)
    = rspacings (cell_update line1 [1;0;0; 0;1;0; 0;0;1] [1;0;0; 0;1;0; 0;0;1] 0) /\
  gspacings (cell_update line1 [1;0;0; 0;1;0; 0;0;1] [1;0;0; 0;1;0; 0;0;1] 4)
    = gspacings (cell_update line1 [1;0;0; 0;1;0; 0;0;1] [1;0;0; 0;1;0; 0;0;1] 0) /\
  volume (cell_update line1 [1;0;0; 0;1;0; 0;0;1] [1;0;0; 0;1;0; 0;0;1] 4)
    = volume line1.
Proof.
  split; [lia |].
  apply (cell_update_bad_nvec line1 [1;0;0; 0;1;0; 0;0;1] [1;0;0; 0;1;0; 0;0;1] 4).
  lia.
Defined.

(** C3 (counterexample): [cell_update] with [nvec = 4] on the unit cell
    along x returns a cell, not an error, and that cell differs from the
    one before the call ([nvec] is now 4) while its [volume] is the stale
    one. *)
Lemma cell_update_nvec4_cex :
  cell_update line1 [1;0;0; 0;1;0; 0;0;1] [1;0;0; 0;1;0; 0;0;1] 4 <> line1 /\
  nvec (cell_update line1 [1;0;0; 0;1;0; 0;0;1] [1;0;0; 0;1;0; 0;0;1] 4) = 4%Z /\
  volume (cell_update line1 [1;0;0; 0;1;0; 0;0;1] [1;0;0; 0;1;0; 0;0;1] 4)
    = volume line1.
Proof.
  split; [| split; reflexivity].
  intros E. apply (f_equal nvec) in E. discriminate E.
Qed.

(** ** C4: round trip through [cell_add_vec] *)

(** [r] agrees with [t] on the first [n] slots. *)
Definition agree_upto (n : Z) (r t : arr3 Z) : Prop :=
  ((0 < n)%Z -> e0 r = e0 t) /\ ((1 < n)%Z -> e1 r = e1 t) /\
  ((2 < n)%Z -> e2 r = e2 t).

(** C4: adding back, with [cell_add_vec], the translation counts [cell_mic]
    subtracted (any [r] equal to them on the active slots) gives the
    original displacement. *)
Theorem cell_mic_add_vec_roundtrip (c : cell_type R) (d : arr3 R) (r : arr3 Z) :
  (0 <= nvec c <= 3)%Z ->
  agree_upto (nvec c) r (snd (cell_mic_trace d c)) ->
  cell_add_vec (cell_mic d c) c r = d.
Proof.
  intros Hn [A0 [A1 A2]].
  destruct c as [n rv gv rs gs vol], d as [d0 d1 d2], r as [r0 r1 r2].
  simpl in Hn, A0, A1, A2.
  assert (E : n = 0%Z \/ n = 1%Z \/ n = 2%Z \/ n = 3%Z) by lia.
  destruct E as [-> | [-> | [-> | ->]]].
  - reflexivity.
  - rewrite A0 by lia. unfold cell_add_vec, cell_mic; simpl. f_equal; ring.
  - rewrite A0, A1 by lia. unfold cell_add_vec, cell_mic; simpl. f_equal; ring.
  - rewrite A0, A1, A2 by lia. unfold cell_add_vec, cell_mic; simpl. f_equal; ring.
Qed.

Lemma cell_mic_add_vec_roundtrip_witness :
  (0 <= nvec line1 <= 3)%Z /\
  agree_upto (nvec line1) (A3 1%Z 5%Z 5%Z) (snd (cell_mic_trace (A3 0.7 0 0) line1)) /\
  cell_add_vec (cell_mic (A3 0.7 0 0) line1) line1 (A3 1%Z 5%Z 5%Z) = A3 0.7 0 0.
Proof.
  assert (A : agree_upto (nvec line1) (A3 1%Z 5%Z 5%Z)
                (snd (cell_mic_trace (A3 0.7 0 0) line1))).
  { unfold agree_upto, cell_mic_trace, line1, at_; simpl.
    split; [| split; intros; lia].
    intros _. symmetry. apply Rceil_unique. simpl. lra. }
  split; [simpl; lia | split; [exact A |]].
  apply (cell_mic_add_vec_roundtrip line1 (A3 0.7 0 0) (A3 1%Z 5%Z 5%Z)).
  - simpl; lia.
  - exact A.
Defined.

(** ** C5: idempotence of [cell_mic] *)

(** The active reciprocal rows are dual to the active direct rows. *)
Definition dual (c : cell_type R) : Prop :=
  forall i j, (i < Z.to_nat (nvec c))%nat -> (j < Z.to_nat (nvec c))%nat ->
    dot (row (gvecs c) i) (row (rvecs c) j) = if Nat.eqb i j then 1 else 0.

Lemma dot_mic_dir (c : cell_type R) (d : arr3 R) (k j : nat) :
  dot (row (gvecs c) j) (mic_dir ceil_half c d k) =
  dot (row (gvecs c) j) d -
  IZR (ceil_half (dot (row (gvecs c) k) d)) * dot (row (gvecs c) j) (row (rvecs c) k).
Proof. unfold mic_dir, dot, vsub, vscale; simpl. ring. Qed.

(** With every active projection in (-1/2, 1/2], [cell_mic] changes nothing
    and all its counts are 0. *)
Lemma cell_mic_trace_reduced (c : cell_type R) (d : arr3 R) :
  (0 <= nvec c <= 3)%Z ->
  (forall k, (k < Z.to_nat (nvec c))%nat ->
     -0.5 < dot (row (gvecs c) k) d <= 0.5) ->
  cell_mic_trace d c = (d, A3 0%Z 0%Z 0%Z).
Proof.
  intros Hn Hk.
  destruct c as [n rv gv rs gs vol], d as [d0 d1 d2]; simpl in Hn, Hk.
  assert (E : n = 0%Z \/ n = 1%Z \/ n = 2%Z \/ n = 3%Z) by lia.
  destruct E as [-> | [-> | [-> | ->]]]; [reflexivity | | |];
    unfold cell_mic_trace; simpl.
  - specialize (Hk 0%nat ltac:(simpl; lia)). unfold dot, row in Hk; simpl in Hk.
    rewrite ceil_half_small by exact Hk. f_equal; f_equal; ring.
  - pose proof (Hk 0%nat ltac:(simpl; lia)) as H0.
    pose proof (Hk 1%nat ltac:(simpl; lia)) as H1.
    unfold dot, row in H0, H1; simpl in H0, H1.
    rewrite ceil_half_small by exact H0.
    repeat rewrite Rmult_0_l, Rminus_0_r.
    rewrite ceil_half_small by exact H1.
    repeat rewrite Rmult_0_l, Rminus_0_r. reflexivity.
  - pose proof (Hk 0%nat ltac:(simpl; lia)) as H0.
    pose proof (Hk 1%nat ltac:(simpl; lia)) as H1.
    pose proof (Hk 2%nat ltac:(simpl; lia)) as H2.
    unfold dot, row in H0, H1, H2; simpl in H0, H1, H2.
    rewrite ceil_half_small by exact H0.
    repeat rewrite Rmult_0_l, Rminus_0_r.
    rewrite ceil_half_small by exact H1.
    repeat rewrite Rmult_0_l, Rminus_0_r.
    rewrite ceil_half_small by exact H2.
    repeat rewrite Rmult_0_l, Rminus_0_r. reflexivity.
Qed.

(** After [cell_mic] on a dual cell, every active projection lies in
    (-1/2, 1/2]. *)
Lemma cell_mic_reduced (c : cell_type R) (d : arr3 R) :
  (0 <= nvec c <= 3)%Z -> dual c ->
  forall k, (k < Z.to_nat (nvec c))%nat ->
    -0.5 < dot (row (gvecs c) k) (cell_mic d c) <= 0.5.
Proof.
  intros Hn Hd k Hk.
  assert (E : nvec c = 0%Z \/ (1 <= nvec c <= 3)%Z) by lia.
  destruct E as [E | E]; [rewrite E in Hk; simpl in Hk; lia |].
  rewrite cell_mic_seq by exact E. unfold mic_seq.
  assert (D : forall i j, (i < Z.to_nat (nvec c))%nat ->
                (j < Z.to_nat (nvec c))%nat ->
                dot (row (gvecs c) i) (row (rvecs c) j) =
                if Nat.eqb i j then 1 else 0) by exact Hd.
  assert (N : nvec c = 1%Z \/ nvec c = 2%Z \/ nvec c = 3%Z) by lia.
  destruct N as [N | [N | N]]; rewrite N in Hk, D |- *; simpl in Hk |- *;
    repeat rewrite dot_mic_dir.
  - assert (k = 0%nat) as -> by lia.
    rewrite (D 0%nat 0%nat) by (simpl; lia); simpl.
    rewrite Rmult_1_r. apply ceil_half_after.
  - assert (K : k = 0%nat \/ k = 1%nat) by lia.
    destruct K as [-> | ->];
      rewrite !D by (simpl; lia); simpl;
      rewrite ?Rmult_0_r, ?Rmult_1_r, ?Rminus_0_r;
      repeat rewrite dot_mic_dir;
      rewrite ?D by (simpl; lia); simpl;
      rewrite ?Rmult_0_r, ?Rmult_1_r, ?Rminus_0_r;
      apply ceil_half_after.
  - assert (K : k = 0%nat \/ k = 1%nat \/ k = 2%nat) by lia.
    destruct K as [-> | [-> | ->]];
      rewrite !D by (simpl; lia); simpl;
      rewrite ?Rmult_0_r, ?Rmult_1_r, ?Rminus_0_r;
      repeat rewrite dot_mic_dir;
      rewrite ?D by (simpl; lia); simpl;
      rewrite ?Rmult_0_r, ?Rmult_1_r, ?Rminus_0_r;
      apply ceil_half_after.
Qed.

(** C5: on a cell whose active reciprocal rows are dual to its active
    direct rows, reducing an already reduced displacement changes nothing:
    every translation count of the second pass is 0. *)
Theorem cell_mic_idempotent (c : cell_type R) (d : arr3 R) :
  (0 <= nvec c <= 3)%Z -> dual c ->
  snd (cell_mic_trace (cell_mic d c) c) = A3 0%Z 0%Z 0%Z /\
  cell_mic (cell_mic d c) c = cell_mic d c.
Proof.
  intros Hn Hd.
  pose proof (cell_mic_trace_reduced c (cell_mic d c) Hn (cell_mic_reduced c d Hn Hd))
    as T.
  split.
  - rewrite T. reflexivity.
  - change (fst (cell_mic_trace (cell_mic d c) c) = cell_mic d c).
    rewrite T. reflexivity.
Qed.

Lemma line1_dual : dual line1.
Proof.
  intros i j Hi Hj. simpl in Hi, Hj.
  assert (i = 0%nat) as -> by lia. assert (j = 0%nat) as -> by lia.
  unfold dot, row, line1, at_; simpl. ring.
Qed.

Lemma cell_mic_idempotent_witness :
  (0 <= nvec line1 <= 3)%Z /\ dual line1 /\
  snd (cell_mic_trace (cell_mic (A3 0.7 0 0) line1) line1) = A3 0%Z 0%Z 0%Z /\
  cell_mic (cell_mic (A3 0.7 0 0) line1) line1 = cell_mic (A3 0.7 0 0) line1.
Proof.
  split; [simpl; lia | split; [exact line1_dual |]].
  apply (cell_mic_idempotent line1 (A3 0.7 0 0)); [simpl; lia | exact line1_dual].
Defined.

(** ** C6: [nvec = 0] *)

(** C6: on a cell with [nvec = 0], [cell_mic], [cell_to_center] and
    [cell_add_vec] leave [delta], [center] and [delta] as they were. *)
Theorem nvec0_noops (c : cell_type R) :
  nvec c = 0%Z ->
  forall (d cart : arr3 R) (center r : arr3 Z),
    cell_mic d c = d /\ cell_to_center cart c center = center /\
    cell_add_vec d c r = d.
Proof.
  intros H0 d cart center r.
  unfold cell_mic, cell_mic_trace, cell_to_center, cell_add_vec.
  rewrite H0. repeat split.
Qed.

Lemma nvec0_noops_witness :
  nvec (cell_update line1 [10;0;0; 0;10;0; 0;0;10] [/10;0;0; 0;/10;0; 0;0;/10] 0) = 0%Z /\
  (cell_mic (A3 7 (-3) 12)
     (cell_update line1 [10;0;0; 0;10;0; 0;0;10] [/10;0;0; 0;/10;0; 0;0;/10] 0)
   = A3 7 (-3) 12 /\
   cell_to_center (A3 7 (-3) 12)
     (cell_update line1 [10;0;0; 0;10;0; 0;0;10] [/10;0;0; 0;/10;0; 0;0;/10] 0)
     (A3 4%Z 5%Z 6%Z) = A3 4%Z 5%Z 6%Z /\
   cell_add_vec (A3 7 (-3) 12)
     (cell_update line1 [10;0;0; 0;10;0; 0;0;10] [/10;0;0; 0;/10;0; 0;0;/10] 0)
     (A3 1%Z 1%Z 1%Z) = A3 7 (-3) 12).
Proof.
  split; [reflexivity |].
  apply (nvec0_noops
           (cell_update line1 [10;0;0; 0;10;0; 0;0;10] [/10;0;0; 0;/10;0; 0;0;/10] 0)).
  reflexivity.
Defined.

(** ** C9, C10: [cell_to_center] *)

(** Slot [k] of a 3-slot array. *)
Definition slot {A} (a : arr3 A) (k : nat) : A :=
  match k with 0%nat => e0 a | 1%nat => e1 a | _ => e2 a end.

(** C9: for [nvec] in {1,2,3}, every active slot [k] of the new [center] is
    [- ceil (gvecs[k].cart - 0.5)] for the [cart] given to the call (no
    slot sees a reduced [cart]); [cart] is only read. *)
Theorem cell_to_center_active (c : cell_type R) (cart : arr3 R) (center : arr3 Z) :
  (1 <= nvec c <= 3)%Z ->
  forall k, (k < Z.to_nat (nvec c))%nat ->
    slot (cell_to_center cart c center) k =
    (- Rceil (dot (row (gvecs c) k) cart - 0.5))%Z.
Proof.
  intros Hn k Hk.
  destruct c as [n rv gv rs gs vol]; simpl in Hn, Hk.
  assert (E : n = 1%Z \/ n = 2%Z \/ n = 3%Z) by lia.
  destruct E as [-> | [-> | ->]]; simpl in Hk.
  - assert (k = 0%nat) as -> by lia. reflexivity.
  - assert (K : k = 0%nat \/ k = 1%nat) by lia.
    destruct K as [-> | ->]; reflexivity.
  - assert (K : k = 0%nat \/ k = 1%nat \/ k = 2%nat) by lia.
    destruct K as [-> | [-> | ->]]; reflexivity.
Qed.

Lemma cell_to_center_active_witness :
  (1 <= nvec line1 <= 3)%Z /\ (0 < Z.to_nat (nvec line1))%nat /\
  slot (cell_to_center (A3 1.6 0 0) line1 (A3 9%Z 9%Z 9%Z)) 0 =
    (- Rceil (dot (row (gvecs line1) 0) (A3 1.6 0 0)%R - 0.5))%Z.
Proof.
  split; [simpl; lia | split; [simpl; lia |]].
  apply (cell_to_center_active line1 (A3 1.6 0 0) (A3 9%Z 9%Z 9%Z)); simpl; lia.
Defined.

(** C10: for [nvec] in {0,1,2}, the slots [k >= nvec] of [center] keep the
    caller's values; with [nvec = 0] nothing is written. *)
Theorem cell_to_center_inactive (c : cell_type R) (cart : arr3 R) (center : arr3 Z) :
  (0 <= nvec c < 3)%Z ->
  (forall k, (Z.to_nat (nvec c) <= k)%nat ->
     slot (cell_to_center cart c center) k = slot center k) /\
  (nvec c = 0%Z -> cell_to_center cart c center = center).
Proof.
  intros Hn.
  destruct c as [n rv gv rs gs vol]; simpl in Hn |- *.
  assert (E : n = 0%Z \/ n = 1%Z \/ n = 2%Z) by lia.
  destruct E as [-> | [-> | ->]]; split; try (intros; discriminate); simpl.
  - intros k _. reflexivity.
  - reflexivity.
  - intros k Hk. destruct k as [| [| k]]; [lia | reflexivity | reflexivity].
  - intros k Hk. destruct k as [| [| k]]; [lia | lia | reflexivity].
Qed.

Lemma cell_to_center_inactive_witness :
  (0 <= nvec line1 < 3)%Z /\
  ((forall k, (Z.to_nat (nvec line1) <= k)%nat ->
     slot (cell_to_center (A3 1.6 0 0) line1 (A3 9%Z 8%Z 7%Z)) k =
     slot (A3 9%Z 8%Z 7%Z) k) /\
   (nvec line1 = 0%Z ->
     cell_to_center (A3 1.6 0 0) line1 (A3 9%Z 8%Z 7%Z) = A3 9%Z 8%Z 7%Z)).
Proof.
  split; [simpl; lia |].
  apply (cell_to_center_inactive line1 (A3 1.6 0 0) (A3 9%Z 8%Z 7%Z)). simpl; lia.
Defined.

(** ** C7, C8: accessors and spacings, for any [double] model *)

Section Accessors.
Context {F : Type} `{Double F}.

(** The shape of a cell produced by [cell_update] with a valid [nvec]. *)
Definition wf_cell (c : cell_type F) : Prop :=
  (0 <= nvec c <= 3)%Z /\ length (rvecs c) = 9%nat /\ length (gvecs c) = 9%nat /\
  length (rspacings c) = 3%nat /\ length (gspacings c) = 3%nat.

Lemma cell_update_wf (c : cell_type F) (rv gv : list F) (n : Z) :
  (0 <= n <= 3)%Z -> wf_cell (cell_update c rv gv n).
Proof. intros Hn. unfold wf_cell; simpl. repeat split; lia. Qed.

Lemma upd_app {A} (l1 l2 : list A) (i : nat) (v : A) :
  (length l1 <= i)%nat -> upd (l1 ++ l2) i v = l1 ++ upd l2 (i - length l1) v.
Proof.
  revert i. induction l1 as [| x l1 IH]; intros i Hi; simpl.
  - rewrite Nat.sub_0_r. reflexivity.
  - destruct i as [| i]; simpl in Hi; [lia |]. simpl. rewrite IH by lia. reflexivity.
Qed.

Lemma firstn_S_nth {A} (l : list A) (n : nat) (d : A) :
  (n < length l)%nat -> firstn (S n) l = firstn n l ++ [nth n l d].
Proof.
  revert n. induction l as [| x l IH]; intros n Hn; simpl in Hn; [lia |].
  destruct n as [| n]; [reflexivity |].
  change (x :: firstn (S n) l = x :: (firstn n l ++ [nth n l d])).
  rewrite (IH n) by lia. reflexivity.
Qed.

Lemma skipn_S_nth {A} (l : list A) (n : nat) (d : A) :
  (n < length l)%nat -> skipn n l = nth n l d :: skipn (S n) l.
Proof.
  revert n. induction l as [| x l IH]; intros n Hn; simpl in Hn; [lia |].
  destruct n as [| n]; [reflexivity |].
  simpl. apply IH. lia.
Qed.

(** The copy loop writes the first [n] slots of [dst] and no other. *)
Lemma copy_loop_spec (n : nat) (src dst : list F) :
  (n <= length src)%nat -> (n <= length dst)%nat ->
  copy_loop (Z.of_nat n) src dst = firstn n src ++ skipn n dst.
Proof.
  unfold copy_loop. rewrite Nat2Z.id.
  induction n as [| n IH]; intros Hs Hd; [reflexivity |].
  rewrite seq_S, fold_left_app, IH by lia. cbn [fold_left plus].
  assert (Lf : length (firstn n src) = n) by (apply firstn_length_le; lia).
  rewrite upd_app by lia. rewrite Lf, Nat.sub_diag.
  rewrite (skipn_S_nth dst n dzero) by lia. cbn [upd].
  rewrite (firstn_S_nth src n dzero) by lia. rewrite <- app_assoc. reflexivity.
Qed.

(** What the claim asks of an accessor [copy] over the array [src]: in full
    mode it writes the [m] slots of [src], in the other mode exactly the
    first [n], and those agree with the full copy. *)
Definition copy_modes (copy : list F -> bool -> list F) (src : list F)
  (m n : nat) : Prop :=
  (forall dst, (m <= length dst)%nat -> copy dst true = src ++ skipn m dst) /\
  (forall dst, (n <= length dst)%nat ->
     copy dst false = firstn n src ++ skipn n dst) /\
  (forall dst dst', (m <= length dst)%nat -> (n <= length dst')%nat ->
     firstn n (copy dst' false) = firstn n (copy dst true)).

Lemma copy_modes_loop (src : list F) (m : nat) (nz : Z) :
  length src = m -> (0 <= nz)%Z -> (Z.to_nat nz <= m)%nat ->
  copy_modes (fun dst full =>
                copy_loop (if full then Z.of_nat m else nz) src dst)
             src m (Z.to_nat nz).
Proof.
  intros L Hz Hn.
  assert (Ef : forall dst, (m <= length dst)%nat ->
             copy_loop (Z.of_nat m) src dst = src ++ skipn m dst).
  { intros dst Hd. rewrite copy_loop_spec by lia.
    rewrite <- L, firstn_all. reflexivity. }
  assert (Ep : forall dst, (Z.to_nat nz <= length dst)%nat ->
             copy_loop nz src dst = firstn (Z.to_nat nz) src ++ skipn (Z.to_nat nz) dst).
  { intros dst Hd. rewrite <- (Z2Nat.id nz) at 1 by exact Hz.
    apply copy_loop_spec; lia. }
  split; [exact Ef | split; [exact Ep |]].
  intros dst dst' Hd Hd'. simpl. rewrite Ef, Ep by assumption.
  assert (Lf : length (firstn (Z.to_nat nz) src) = Z.to_nat nz)
    by (apply firstn_length_le; lia).
  rewrite firstn_app, Lf, Nat.sub_diag, firstn_O, app_nil_r.
  rewrite firstn_firstn, Nat.min_id.
  rewrite firstn_app, L. replace (Z.to_nat nz - m)%nat with 0%nat by lia.
  rewrite firstn_O, app_nil_r. reflexivity.
Qed.

(** C7: on a cell with [nvec] in {0,1,2,3}, each copy accessor writes all
    9 (vectors) or 3 (spacings) slots in full mode, exactly the first
    [nvec*3] or [nvec] slots otherwise, and these agree with the full copy;
    the cell is only read. *)
Theorem cell_copy_modes (c : cell_type F) :
  wf_cell c ->
  copy_modes (cell_copy_rvecs c) (rvecs c) 9 (Z.to_nat (nvec c * 3)) /\
  copy_modes (cell_copy_gvecs c) (gvecs c) 9 (Z.to_nat (nvec c * 3)) /\
  copy_modes (cell_copy_rspacings c) (rspacings c) 3 (Z.to_nat (nvec c)) /\
  copy_modes (cell_copy_gspacings c) (gspacings c) 3 (Z.to_nat (nvec c)).
Proof.
  intros [Hn [Lr [Lg [Lrs Lgs]]]].
  split; [| split; [| split]].
  - exact (copy_modes_loop (rvecs c) 9 (nvec c * 3) Lr ltac:(lia) ltac:(lia)).
  - exact (copy_modes_loop (gvecs c) 9 (nvec c * 3) Lg ltac:(lia) ltac:(lia)).
  - exact (copy_modes_loop (rspacings c) 3 (nvec c) Lrs ltac:(lia) ltac:(lia)).
  - exact (copy_modes_loop (gspacings c) 3 (nvec c) Lgs ltac:(lia) ltac:(lia)).
Qed.

(** C8 (formula part): whatever [nvec], the three spacing slots are
    recomputed as [1/|gvecs row i|] and [1/|rvecs row i|]. *)
Lemma cell_update_spacings (c : cell_type F) (rv gv : list F) (n : Z) :
  rspacings (cell_update c rv gv n) =
    [ddiv done (dsqrt (dadd (dadd (dmul (at_ gv 0) (at_ gv 0)) (dmul (at_ gv 1) (at_ gv 1)))
                          (dmul (at_ gv 2) (at_ gv 2))));
     ddiv done (dsqrt (dadd (dadd (dmul (at_ gv 3) (at_ gv 3)) (dmul (at_ gv 4) (at_ gv 4)))
                          (dmul (at_ gv 5) (at_ gv 5))));
     ddiv done (dsqrt (dadd (dadd (dmul (at_ gv 6) (at_ gv 6)) (dmul (at_ gv 7) (at_ gv 7)))
                          (dmul (at_ gv 8) (at_ gv 8))))] /\
  gspacings (cell_update c rv gv n) =
    [ddiv done (dsqrt (dadd (dadd (dmul (at_ rv 0) (at_ rv 0)) (dmul (at_ rv 1) (at_ rv 1)))
                          (dmul (at_ rv 2) (at_ rv 2))));
     ddiv done (dsqrt (dadd (dadd (dmul (at_ rv 3) (at_ rv 3)) (dmul (at_ rv 4) (at_ rv 4)))
                          (dmul (at_ rv 5) (at_ rv 5))));
     ddiv done (dsqrt (dadd (dadd (dmul (at_ rv 6) (at_ rv 6)) (dmul (at_ rv 7) (at_ rv 7)))
                          (dmul (at_ rv 8) (at_ rv 8))))].
Proof. split; reflexivity. Qed.

End Accessors.

Lemma cell_copy_modes_witness :
  wf_cell (cube10 line1) /\
  copy_modes (cell_copy_rvecs (cube10 line1)) (rvecs (cube10 line1)) 9
    (Z.to_nat (nvec (cube10 line1) * 3)) /\
  copy_modes (cell_copy_gvecs (cube10 line1)) (gvecs (cube10 line1)) 9
    (Z.to_nat (nvec (cube10 line1) * 3)) /\
  copy_modes (cell_copy_rspacings (cube10 line1)) (rspacings (cube10 line1)) 3
    (Z.to_nat (nvec (cube10 line1))) /\
  copy_modes (cell_copy_gspacings (cube10 line1)) (gspacings (cube10 line1)) 3
    (Z.to_nat (nvec (cube10 line1))).
Proof.
  assert (W : wf_cell (cube10 line1)) by (apply cell_update_wf; lia).
  split; [exact W |].
  apply (cell_copy_modes (cube10 line1)). exact W.
Defined.

(** ** C8 on IEEE-754 doubles *)

(** Row [i] of [m] holds only zeros ([+0.0] or [-0.0]). *)
Definition zero_row (m : list PrimFloat.float) (i : nat) : Prop :=
  forall j, (j < 3)%nat ->
    at_ m (3 * i + j) = PrimFloat.zero \/ at_ m (3 * i + j) = PrimFloat.neg_zero.

Lemma inv_norm_zero_row (x y z : PrimFloat.float) :
  (x = PrimFloat.zero \/ x = PrimFloat.neg_zero) ->
  (y = PrimFloat.zero \/ y = PrimFloat.neg_zero) ->
  (z = PrimFloat.zero \/ z = PrimFloat.neg_zero) ->
  ddiv done (dsqrt (dadd (dadd (dmul x x) (dmul y y)) (dmul z z)))
    = PrimFloat.infinity.
Proof.
  intros [-> | ->] [-> | ->] [-> | ->]; vm_compute; reflexivity.
Qed.

Lemma zero_row_inv_norm (m : list PrimFloat.float) (i : nat) :
  zero_row m i ->
  ddiv done (dsqrt (dadd (dadd (dmul (at_ m (3 * i)) (at_ m (3 * i)))
                               (dmul (at_ m (3 * i + 1)) (at_ m (3 * i + 1))))
                         (dmul (at_ m (3 * i + 2)) (at_ m (3 * i + 2)))))
    = PrimFloat.infinity.
Proof.
  intros Z. apply inv_norm_zero_row.
  - rewrite <- (Nat.add_0_r (3 * i)). apply Z. lia.
  - apply Z. lia.
  - apply Z. lia.
Qed.

(** C8: on IEEE doubles, [cell_update] recomputes all three [rspacings] and
    [gspacings] slots for any [nvec], as [1/|gvecs row i|] and
    [1/|rvecs row i|]; a slot whose row is all zeros gets [+infinity]. *)
Theorem cell_update_spacings_ieee (c : cell_type PrimFloat.float)
  (rv gv : list PrimFloat.float) (n : Z) :
  rspacings (cell_update c rv gv n) =
    map (fun i => ddiv done (dsqrt (dadd (dadd (dmul (at_ gv (3 * i)) (at_ gv (3 * i)))
                                  (dmul (at_ gv (3 * i + 1)) (at_ gv (3 * i + 1))))
                                  (dmul (at_ gv (3 * i + 2)) (at_ gv (3 * i + 2))))))
        [0; 1; 2]%nat /\
  gspacings (cell_update c rv gv n) =
    map (fun i => ddiv done (dsqrt (dadd (dadd (dmul (at_ rv (3 * i)) (at_ rv (3 * i)))
                                  (dmul (at_ rv (3 * i + 1)) (at_ rv (3 * i + 1))))
                                  (dmul (at_ rv (3 * i + 2)) (at_ rv (3 * i + 2))))))
        [0; 1; 2]%nat /\
  (forall i, (i < 3)%nat -> zero_row gv i ->
     nth i (rspacings (cell_update c rv gv n)) dzero = PrimFloat.infinity) /\
  (forall i, (i < 3)%nat -> zero_row rv i ->
     nth i (gspacings (cell_update c rv gv n)) dzero = PrimFloat.infinity).
Proof.
  destruct (cell_update_spacings c rv gv n) as [Er Eg].
  split; [rewrite Er; reflexivity | split; [rewrite Eg; reflexivity | split]].
  - intros i Hi Z. rewrite Er.
    destruct i as [| [| [| i]]]; [| | | lia];
      exact (zero_row_inv_norm gv _ Z).
  - intros i Hi Z. rewrite Eg.
    destruct i as [| [| [| i]]]; [| | | lia];
      exact (zero_row_inv_norm rv _ Z).
Qed.

(** An all-zero [gvecs] on IEEE doubles: every [rspacings] slot is
    [+infinity], whatever [nvec]. *)
Example zero_gvecs_spacing :
  zero_row (repeat PrimFloat.zero 9) 1 /\
  rspacings (cell_update (mk_cell 0%Z [] [] [] [] PrimFloat.zero)
               (repeat PrimFloat.one 9) (repeat PrimFloat.zero 9) 7)
    = [PrimFloat.infinity; PrimFloat.infinity; PrimFloat.infinity].
Proof.
  split.
  - intros j Hj. left. destruct j as [| [| [| j]]]; [reflexivity.. | lia].
  - vm_compute. reflexivity.
Qed.

(** ** Further properties of the kernel *)

(** *** Vector algebra *)

Lemma arr3_eq {A} (a b : arr3 A) :
  e0 a = e0 b -> e1 a = e1 b -> e2 a = e2 b -> a = b.
Proof. destruct a, b; simpl; intros -> -> ->; reflexivity. Qed.

Lemma dot_vadd (g a b : arr3 R) : dot g (vadd a b) = dot g a + dot g b.
Proof. unfold dot, vadd; simpl; ring. Qed.

Lemma dot_vscale (g : arr3 R) (t : R) (a : arr3 R) : dot g (vscale t a) = t * dot g a.
Proof. unfold dot, vscale; simpl; ring. Qed.

Lemma dot_vzero (g : arr3 R) : dot g vzero = 0.
Proof. unfold dot, vzero; simpl; ring. Qed.

Lemma sub_seq_lin (c : cell_type R) (cnt : nat -> Z) (ks : list nat) (d : arr3 R) :
  sub_seq c cnt ks d = vsub d (lin c cnt ks).
Proof.
  revert d. induction ks as [| k ks IH]; intros d.
  - apply arr3_eq; cbn; ring.
  - unfold sub_seq; cbn [fold_left].
    change (fold_left _ ks ?e) with (sub_seq c cnt ks e). rewrite IH.
    unfold lin; cbn [fold_right]; fold (lin c cnt ks).
    apply arr3_eq; cbn [e0 e1 e2 vsub vadd vscale]; ring.
Qed.

Lemma sub_seq_ext (c : cell_type R) (f g : nat -> Z) (ks : list nat) (d : arr3 R) :
  (forall k, In k ks -> f k = g k) -> sub_seq c f ks d = sub_seq c g ks d.
Proof.
  intros E. rewrite !sub_seq_lin. f_equal.
  induction ks as [| k ks IH]; [reflexivity |].
  unfold lin; cbn [fold_right]; fold (lin c f ks); fold (lin c g ks).
  rewrite E by (left; reflexivity). rewrite IH by (intros; apply E; right; assumption).
  reflexivity.
Qed.

Lemma lin_ext (c : cell_type R) (f g : nat -> Z) (ks : list nat) :
  (forall k, In k ks -> f k = g k) -> lin c f ks = lin c g ks.
Proof.
  intros E. induction ks as [| k ks IH]; [reflexivity |].
  unfold lin; cbn [fold_right]; fold (lin c f ks); fold (lin c g ks).
  rewrite E by (left; reflexivity). rewrite IH by (intros; apply E; right; assumption).
  reflexivity.
Qed.

Lemma lin_plus (c : cell_type R) (f g : nat -> Z) (ks : list nat) :
  lin c (fun k => f k + g k)%Z ks = vadd (lin c f ks) (lin c g ks).
Proof.
  induction ks as [| k ks IH]; [apply arr3_eq; cbn; ring |].
  unfold lin in *; cbn [fold_right]. rewrite IH.
  apply arr3_eq; cbn [e0 e1 e2 vadd vscale]; rewrite plus_IZR; ring.
Qed.

Lemma lin_opp (c : cell_type R) (f : nat -> Z) (ks : list nat) :
  lin c (fun k => - f k)%Z ks = vscale (-1) (lin c f ks).
Proof.
  induction ks as [| k ks IH]; [apply arr3_eq; cbn; ring |].
  unfold lin in *; cbn [fold_right]. rewrite IH.
  apply arr3_eq; cbn [e0 e1 e2 vadd vscale]; rewrite opp_IZR; ring.
Qed.

(** On a dual cell, the projection of [sum cnt k * rvecs[k]] on an active
    reciprocal row [j] is [cnt j]. *)
Lemma dot_lin_dual (c : cell_type R) (cnt : nat -> Z) (j : nat) :
  (0 <= nvec c <= 3)%Z -> dual c -> (j < Z.to_nat (nvec c))%nat ->
  dot (row (gvecs c) j) (lin c cnt (seq 0 (Z.to_nat (nvec c)))) = IZR (cnt j).
Proof.
  intros Hn Hd Hj. unfold dual in Hd.
  remember (Z.to_nat (nvec c)) as n eqn:En.
  assert (n <= 3)%nat by lia.
  destruct n as [| [| [| [| n]]]]; try lia;
    destruct j as [| [| [| j]]]; try lia;
    unfold lin; cbn [seq fold_right];
    rewrite ?dot_vadd, ?dot_vscale, ?dot_vzero;
    rewrite ?Hd by lia; cbn [Nat.eqb]; ring.
Qed.

Lemma dot_mic_dir_gen (round : R -> Z) (c : cell_type R) (d : arr3 R) (k j : nat) :
  dot (row (gvecs c) j) (mic_dir round c d k) =
  dot (row (gvecs c) j) d -
  IZR (round (dot (row (gvecs c) k) d)) * dot (row (gvecs c) j) (row (rvecs c) k).
Proof. unfold mic_dir, dot, vsub, vscale; simpl. ring. Qed.

(** With mutually orthogonal directions, the sequential reduction uses the
    projections of the displacement it started from. *)
Lemma mic_fold_orth (round : R -> Z) (c : cell_type R) (ks : list nat) (e : arr3 R) :
  NoDup ks ->
  (forall i j, In i ks -> In j ks -> i <> j ->
     dot (row (gvecs c) i) (row (rvecs c) j) = 0) ->
  fold_left (mic_dir round c) ks e =
  sub_seq c (fun k => round (dot (row (gvecs c) k) e)) ks e.
Proof.
  revert e. induction ks as [| k ks IH]; intros e Hnd Ho; [reflexivity |].
  inversion Hnd as [| ? ? Hk Hnd']; subst.
  cbn [fold_left]. rewrite IH by (auto || (intros; apply Ho; auto; right; auto)).
  transitivity (sub_seq c (fun j => round (dot (row (gvecs c) j) e)) ks
                  (mic_dir round c e k)); [| reflexivity].
  apply sub_seq_ext. intros j Hj.
  rewrite dot_mic_dir_gen, (Ho j k)
    by first [right; assumption | left; reflexivity | intros ->; contradiction].
  f_equal; ring.
Qed.

(** *** The kernels in vector form *)

Lemma ceil_half_shift (f : R) (m : Z) :
  ceil_half (f + IZR m) = (ceil_half f + m)%Z.
Proof.
  unfold ceil_half. apply Rceil_unique. rewrite plus_IZR.
  pose proof (Rceil_spec (f - 0.5)). lra.
Qed.

Lemma cell_mic_dual_lin (c : cell_type R) (d : arr3 R) :
  (0 <= nvec c <= 3)%Z -> dual c ->
  cell_mic d c =
  vsub d (lin c (fun k => ceil_half (dot (row (gvecs c) k) d))
              (seq 0 (Z.to_nat (nvec c)))).
Proof.
  intros Hn Hd.
  assert (E : nvec c = 0%Z \/ (1 <= nvec c <= 3)%Z) by lia.
  destruct E as [E | E].
  - unfold cell_mic, cell_mic_trace. rewrite E. simpl.
    apply arr3_eq; cbn; ring.
  - rewrite cell_mic_seq by exact E. unfold mic_seq.
    rewrite mic_fold_orth; [apply sub_seq_lin | apply seq_NoDup |].
    intros i j Hi Hj Hij. apply in_seq in Hi, Hj.
    rewrite Hd by lia. apply Nat.eqb_neq in Hij. rewrite Hij. reflexivity.
Qed.

Lemma cell_add_vec_lin (c : cell_type R) (d : arr3 R) (r : arr3 Z) :
  (0 <= nvec c <= 3)%Z ->
  cell_add_vec d c r = vadd d (lin c (slot r) (seq 0 (Z.to_nat (nvec c)))).
Proof.
  intros Hn. destruct c as [n rv gv rs gs vol]; simpl in Hn.
  assert (E : n = 0%Z \/ n = 1%Z \/ n = 2%Z \/ n = 3%Z) by lia.
  destruct E as [-> | [-> | [-> | ->]]];
    unfold cell_add_vec, lin; simpl; apply arr3_eq; simpl; ring.
Qed.

Lemma cell_to_center_slots (c : cell_type R) (cart : arr3 R) (center : arr3 Z)
  (k : nat) :
  (0 <= nvec c <= 3)%Z -> (k < 3)%nat ->
  slot (cell_to_center cart c center) k =
  if (k <? Z.to_nat (nvec c))%nat
  then (- ceil_half (dot (row (gvecs c) k) cart))%Z
  else slot center k.
Proof.
  intros Hn Hk. destruct c as [n rv gv rs gs vol]; simpl in Hn.
  assert (E : n = 0%Z \/ n = 1%Z \/ n = 2%Z \/ n = 3%Z) by lia.
  destruct E as [-> | [-> | [-> | ->]]];
    destruct k as [| [| [| k]]]; try lia; reflexivity.
Qed.

Lemma cell_to_frac_slot (c : cell_type R) (cart : arr3 R) (k : nat) :
  (k < 3)%nat -> slot (cell_to_frac c cart) k = dot (row (gvecs c) k) cart.
Proof. intros Hk. destruct k as [| [| [| k]]]; try lia; reflexivity. Qed.

(** *** Dual cells: reduction, wrapping and lattice translations *)

(** X1: on a dual cell, [cell_mic] is the wrap that [cell_to_center] and
    [cell_add_vec] compose: adding the indices [cell_to_center] computes
    from [delta] to [delta] gives what [cell_mic] gives. *)
Theorem cell_mic_is_wrap (c : cell_type R) (d : arr3 R) (center : arr3 Z) :
  (0 <= nvec c <= 3)%Z -> dual c ->
  cell_mic d c = cell_add_vec d c (cell_to_center d c center).
Proof.
  intros Hn Hd.
  rewrite cell_mic_dual_lin, cell_add_vec_lin by assumption.
  rewrite (lin_ext c (slot (cell_to_center d c center))
             (fun k => - ceil_half (dot (row (gvecs c) k) d))%Z).
  - rewrite lin_opp. apply arr3_eq; cbn [e0 e1 e2 vsub vadd vscale]; ring.
  - intros k Hk. apply in_seq in Hk.
    rewrite cell_to_center_slots by lia.
    replace (k <? Z.to_nat (nvec c))%nat with true
      by (symmetry; apply Nat.ltb_lt; lia).
    reflexivity.
Qed.

Lemma cell_mic_is_wrap_witness :
  (0 <= nvec line1 <= 3)%Z /\ dual line1 /\
  cell_mic (A3 0.7 0 0) line1 =
  cell_add_vec (A3 0.7 0 0) line1 (cell_to_center (A3 0.7 0 0) line1 (A3 0%Z 0%Z 0%Z)).
Proof.
  split; [simpl; lia | split; [exact line1_dual |]].
  apply cell_mic_is_wrap; [simpl; lia | exact line1_dual].
Defined.

(** X2: on a dual cell, [cell_mic] does not see lattice translations:
    reducing [delta] shifted by any integer combination of the active
    [rvecs] gives the same result as reducing [delta]. *)
Theorem cell_mic_translation_invariant (c : cell_type R) (d : arr3 R) (r : arr3 Z) :
  (0 <= nvec c <= 3)%Z -> dual c ->
  cell_mic (cell_add_vec d c r) c = cell_mic d c.
Proof.
  intros Hn Hd.
  rewrite (cell_mic_dual_lin c (cell_add_vec d c r)), (cell_mic_dual_lin c d)
    by assumption.
  rewrite (lin_ext c (fun k => ceil_half (dot (row (gvecs c) k) (cell_add_vec d c r)))
             (fun k => ceil_half (dot (row (gvecs c) k) d) + slot r k)%Z).
  - rewrite (lin_plus c (fun k => ceil_half (dot (row (gvecs c) k) d)) (slot r)).
    rewrite (cell_add_vec_lin c d r) by assumption.
    apply arr3_eq; cbn [e0 e1 e2 vsub vadd vscale]; ring.
  - intros k Hk. apply in_seq in Hk.
    rewrite cell_add_vec_lin, dot_vadd, dot_lin_dual by (assumption || lia).
    apply ceil_half_shift.
Qed.

Lemma cell_mic_translation_invariant_witness :
  (0 <= nvec line1 <= 3)%Z /\ dual line1 /\
  cell_mic (cell_add_vec (A3 0.7 0 0) line1 (A3 4%Z 0%Z 0%Z)) line1 =
  cell_mic (A3 0.7 0 0) line1.
Proof.
  split; [simpl; lia | split; [exact line1_dual |]].
  apply cell_mic_translation_invariant; [simpl; lia | exact line1_dual].
Defined.

(** X3: on a dual cell, shifting [cart] by the lattice translation [r]
    shifts every active index [cell_to_center] computes by [- r[k]]. *)
Theorem cell_to_center_translation (c : cell_type R) (cart : arr3 R)
  (r center : arr3 Z) (k : nat) :
  (0 <= nvec c <= 3)%Z -> dual c -> (k < Z.to_nat (nvec c))%nat ->
  slot (cell_to_center (cell_add_vec cart c r) c center) k =
  (slot (cell_to_center cart c center) k - slot r k)%Z.
Proof.
  intros Hn Hd Hk.
  rewrite !cell_to_center_slots by lia.
  replace (k <? Z.to_nat (nvec c))%nat with true by (symmetry; apply Nat.ltb_lt; lia).
  rewrite cell_add_vec_lin, dot_vadd, dot_lin_dual by assumption.
  rewrite ceil_half_shift. lia.
Qed.

Lemma cell_to_center_translation_witness :
  (0 <= nvec line1 <= 3)%Z /\ dual line1 /\ (0 < Z.to_nat (nvec line1))%nat /\
  slot (cell_to_center (cell_add_vec (A3 0.7 0 0)%R line1 (A3 4%Z 0%Z 0%Z)) line1
          (A3 0%Z 0%Z 0%Z)) 0 =
  (slot (cell_to_center (A3 0.7 0 0)%R line1 (A3 0%Z 0%Z 0%Z)) 0 - 4)%Z.
Proof.
  split; [simpl; lia | split; [exact line1_dual | split; [simpl; lia |]]].
  apply (cell_to_center_translation line1 (A3 0.7 0 0)%R (A3 4%Z 0%Z 0%Z)
           (A3 0%Z 0%Z 0%Z) 0); [simpl; lia | exact line1_dual | simpl; lia].
Defined.

(** X4: on a dual cell, [cell_add_vec] with [r] adds [r[k]] to every
    active fractional coordinate [cell_to_frac] computes. *)
Theorem cell_to_frac_add_vec (c : cell_type R) (d : arr3 R) (r : arr3 Z) (k : nat) :
  (0 <= nvec c <= 3)%Z -> dual c -> (k < Z.to_nat (nvec c))%nat ->
  slot (cell_to_frac c (cell_add_vec d c r)) k =
  slot (cell_to_frac c d) k + IZR (slot r k).
Proof.
  intros Hn Hd Hk.
  rewrite !cell_to_frac_slot by lia.
  rewrite cell_add_vec_lin, dot_vadd, dot_lin_dual by assumption. reflexivity.
Qed.

Lemma cell_to_frac_add_vec_witness :
  (0 <= nvec line1 <= 3)%Z /\ dual line1 /\ (0 < Z.to_nat (nvec line1))%nat /\
  slot (cell_to_frac line1 (cell_add_vec (A3 0.7 0 0) line1 (A3 4%Z 0%Z 0%Z))) 0 =
  slot (cell_to_frac line1 (A3 0.7 0 0)) 0 + IZR (slot (A3 4%Z 0%Z 0%Z) 0).
Proof.
  split; [simpl; lia | split; [exact line1_dual | split; [simpl; lia |]]].
  apply cell_to_frac_add_vec; [simpl; lia | exact line1_dual | simpl; lia].
Defined.

(** X5: on a dual cell, every active fractional coordinate of the
    displacement [cell_mic] returns lies in (-1/2, 1/2]. *)
Theorem cell_mic_frac_range (c : cell_type R) (d : arr3 R) (k : nat) :
  (0 <= nvec c <= 3)%Z -> dual c -> (k < Z.to_nat (nvec c))%nat ->
  -0.5 < slot (cell_to_frac c (cell_mic d c)) k <= 0.5.
Proof.
  intros Hn Hd Hk. rewrite cell_to_frac_slot by lia.
  apply cell_mic_reduced; assumption.
Qed.

Lemma cell_mic_frac_range_witness :
  (0 <= nvec line1 <= 3)%Z /\ dual line1 /\ (0 < Z.to_nat (nvec line1))%nat /\
  -0.5 < slot (cell_to_frac line1 (cell_mic (A3 7.3 2 1) line1)) 0 <= 0.5.
Proof.
  split; [simpl; lia | split; [exact line1_dual | split; [simpl; lia |]]].
  apply cell_mic_frac_range; [simpl; lia | exact line1_dual | simpl; lia].
Defined.

(** *** [cell_update] and the accessors, for any [double] model *)

Section UpdateProps.
Context {F : Type} `{Double F}.

(** X6: for [nvec] in {0,1,2,3}, [cell_update] overwrites every field: its
    result does not depend on the cell's previous contents. *)
Theorem cell_update_fresh (c1 c2 : cell_type F) (rv gv : list F) (n : Z) :
  (0 <= n <= 3)%Z -> cell_update c1 rv gv n = cell_update c2 rv gv n.
Proof.
  intros Hn.
  assert (E : n = 0%Z \/ n = 1%Z \/ n = 2%Z \/ n = 3%Z) by lia.
  destruct E as [-> | [-> | [-> | ->]]]; reflexivity.
Qed.

Lemma map_at_seq (l : list F) (n : nat) :
  (n <= length l)%nat -> map (at_ l) (seq 0 n) = firstn n l.
Proof.
  intros Hl. apply nth_ext with (d := dzero) (d' := dzero).
  - rewrite length_map, length_seq, firstn_length_le by exact Hl. reflexivity.
  - intros i Hi. rewrite length_map, length_seq in Hi.
    rewrite nth_indep with (d' := at_ l 0) by (rewrite length_map, length_seq; lia).
    rewrite map_nth, seq_nth by exact Hi. simpl.
    unfold at_. rewrite nth_firstn.
    replace (i <? n)%nat with true by (symmetry; apply Nat.ltb_lt; exact Hi).
    reflexivity.
Qed.

(** X7: after [cell_update] with arrays of at least 9 entries,
    [cell_get_nvec] returns the [nvec] given and the full copies of
    [rvecs] and [gvecs] write back their first 9 entries, leaving the rest
    of the output buffer alone. *)
Theorem cell_update_copy_roundtrip (c : cell_type F) (rv gv dst : list F) (n : Z) :
  (9 <= length rv)%nat -> (9 <= length gv)%nat -> (9 <= length dst)%nat ->
  cell_get_nvec (cell_update c rv gv n) = n /\
  cell_copy_rvecs (cell_update c rv gv n) dst true = firstn 9 rv ++ skipn 9 dst /\
  cell_copy_gvecs (cell_update c rv gv n) dst true = firstn 9 gv ++ skipn 9 dst.
Proof.
  intros Hr Hg Hd. split; [reflexivity | split].
  - unfold cell_copy_rvecs, cell_update; cbn [rvecs].
    change 9%Z with (Z.of_nat 9). rewrite copy_loop_spec
      by (rewrite ?length_map, ?length_seq; lia).
    rewrite map_at_seq by exact Hr. rewrite firstn_firstn. reflexivity.
  - unfold cell_copy_gvecs, cell_update; cbn [gvecs].
    change 9%Z with (Z.of_nat 9). rewrite copy_loop_spec
      by (rewrite ?length_map, ?length_seq; lia).
    rewrite map_at_seq by exact Hg. rewrite firstn_firstn. reflexivity.
Qed.


End UpdateProps.

Lemma cell_update_fresh_witness :
  (0 <= 3 <= 3)%Z /\
  cell_update line1 [10;0;0; 0;10;0; 0;0;10] [/10;0;0; 0;/10;0; 0;0;/10] 3 =
  cell_update (cube10 line1) [10;0;0; 0;10;0; 0;0;10] [/10;0;0; 0;/10;0; 0;0;/10] 3.
Proof.
  split; [lia |]. apply cell_update_fresh. lia.
Defined.

Lemma cell_update_copy_roundtrip_witness :
  (9 <= length [1;2;3;4;5;6;7;8;9;10])%nat /\ (9 <= length (repeat 0 9))%nat /\
  (9 <= length (repeat 0 9))%nat /\
  cell_get_nvec (cell_update line1 [1;2;3;4;5;6;7;8;9;10] (repeat 0 9) 2) = 2%Z /\
  cell_copy_rvecs (cell_update line1 [1;2;3;4;5;6;7;8;9;10] (repeat 0 9) 2)
    (repeat 0 9) true = firstn 9 [1;2;3;4;5;6;7;8;9;10] ++ skipn 9 (repeat 0 9) /\
  cell_copy_gvecs (cell_update line1 [1;2;3;4;5;6;7;8;9;10] (repeat 0 9) 2)
    (repeat 0 9) true = firstn 9 (repeat 0 9) ++ skipn 9 (repeat 0 9).
Proof.
  split; [simpl; lia | split; [simpl; lia | split; [simpl; lia |]]].
  apply cell_update_copy_roundtrip; simpl; lia.
Defined.


(** *** Volume *)

(** X9: for [nvec = 2], in exact arithmetic the clamp of [cell_update]
    never fires on a positive value it should keep: the volume is the
    length of the cross product of rows 0 and 1 (Lagrange's identity), and
    it is 0 when the two rows are linearly dependent. *)
Theorem cell_update_volume2 (c : cell_type R) (rv gv : list R) :
  volume (cell_update c rv gv 2) =
    sqrt (dot (cross (row rv 0) (row rv 1)) (cross (row rv 0) (row rv 1))) /\
  (forall alpha beta, (alpha <> 0 \/ beta <> 0) ->
     vadd (vscale alpha (row rv 0)) (vscale beta (row rv 1)) = vzero ->
     volume (cell_update c rv gv 2) = 0).
Proof.
  assert (V : volume (cell_update c rv gv 2) =
              sqrt (dot (cross (row rv 0) (row rv 1)) (cross (row rv 0) (row rv 1)))).
  { cbn -[sqrt].
    match goal with |- context [Rlt_dec 0 ?t] =>
      assert (L : t = dot (cross (row rv 0) (row rv 1)) (cross (row rv 0) (row rv 1)))
        by (unfold dot, cross, row; simpl; ring);
      destruct (Rlt_dec 0 t) as [P | P]
    end.
    - rewrite L. reflexivity.
    - assert (N : 0 <= dot (cross (row rv 0) (row rv 1)) (cross (row rv 0) (row rv 1)))
        by (unfold dot; repeat apply Rplus_le_le_0_compat; apply Rle_0_sqr).
      replace (dot (cross (row rv 0) (row rv 1)) (cross (row rv 0) (row rv 1)))
        with 0 by lra.
      symmetry. apply sqrt_0. }
  split; [exact V |].
  intros alpha beta Hab Hdep. rewrite V.
  destruct (row rv 0) as [a0 a1 a2], (row rv 1) as [b0 b1 b2].
  pose proof (f_equal e0 Hdep) as H0; pose proof (f_equal e1 Hdep) as H1;
  pose proof (f_equal e2 Hdep) as H2; simpl in H0, H1, H2.
  unfold cross, dot; simpl.
  assert (Z : forall x, alpha * x = 0 -> beta * x = 0 -> x = 0).
  { intros x Ax Bx. destruct Hab as [Ha | Hb].
    - destruct (Rmult_integral _ _ Ax); [contradiction | assumption].
    - destruct (Rmult_integral _ _ Bx); [contradiction | assumption]. }
  assert (X0 : a1 * b2 - a2 * b1 = 0).
  { apply Z.
    - transitivity (b2 * (alpha * a1 + beta * b1) - b1 * (alpha * a2 + beta * b2));
        [ring | rewrite H1, H2; ring].
    - transitivity (a1 * (alpha * a2 + beta * b2) - a2 * (alpha * a1 + beta * b1));
        [ring | rewrite H1, H2; ring]. }
  assert (X1 : a2 * b0 - a0 * b2 = 0).
  { apply Z.
    - transitivity (b0 * (alpha * a2 + beta * b2) - b2 * (alpha * a0 + beta * b0));
        [ring | rewrite H0, H2; ring].
    - transitivity (a2 * (alpha * a0 + beta * b0) - a0 * (alpha * a2 + beta * b2));
        [ring | rewrite H0, H2; ring]. }
  assert (X2 : a0 * b1 - a1 * b0 = 0).
  { apply Z.
    - transitivity (b1 * (alpha * a0 + beta * b0) - b0 * (alpha * a1 + beta * b1));
        [ring | rewrite H0, H1; ring].
    - transitivity (a0 * (alpha * a1 + beta * b1) - a1 * (alpha * a0 + beta * b0));
        [ring | rewrite H0, H1; ring]. }
  rewrite X0, X1, X2. replace (0 * 0 + 0 * 0 + 0 * 0) with 0 by ring.
  apply sqrt_0.
Qed.

(** X10: for [nvec = 3], the volume is 0 whenever rows 0, 1, 2 are
    linearly dependent. *)
Theorem cell_update_volume3_dependent (c : cell_type R) (rv gv : list R)
  (alpha beta gamma : R) :
  (alpha <> 0 \/ beta <> 0 \/ gamma <> 0) ->
  vadd (vadd (vscale alpha (row rv 0)) (vscale beta (row rv 1)))
       (vscale gamma (row rv 2)) = vzero ->
  volume (cell_update c rv gv 3) = 0.
Proof.
  intros Habc Hdep.
  assert (V : volume (cell_update c rv gv 3) =
              Rabs (dot (row rv 0) (cross (row rv 1) (row rv 2)))).
  { cbn -[Rabs]. f_equal; unfold dot, cross, row; simpl; ring. }
  rewrite V.
  destruct (row rv 0) as [a0 a1 a2], (row rv 1) as [b0 b1 b2],
    (row rv 2) as [c0 c1 c2].
  pose proof (f_equal e0 Hdep) as H0; pose proof (f_equal e1 Hdep) as H1;
  pose proof (f_equal e2 Hdep) as H2; simpl in H0, H1, H2.
  unfold dot, cross; simpl.
  set (D := a0 * (b1 * c2 - b2 * c1) + a1 * (b2 * c0 - b0 * c2) +
            a2 * (b0 * c1 - b1 * c0)).
  assert (A : alpha * D = 0).
  { transitivity ((b1 * c2 - b2 * c1) * (alpha * a0 + beta * b0 + gamma * c0) +
                  (b2 * c0 - b0 * c2) * (alpha * a1 + beta * b1 + gamma * c1) +
                  (b0 * c1 - b1 * c0) * (alpha * a2 + beta * b2 + gamma * c2));
      [unfold D; ring | rewrite H0, H1, H2; ring]. }
  assert (B : beta * D = 0).
  { transitivity ((c1 * a2 - c2 * a1) * (alpha * a0 + beta * b0 + gamma * c0) +
                  (c2 * a0 - c0 * a2) * (alpha * a1 + beta * b1 + gamma * c1) +
                  (c0 * a1 - c1 * a0) * (alpha * a2 + beta * b2 + gamma * c2));
      [unfold D; ring | rewrite H0, H1, H2; ring]. }
  assert (G : gamma * D = 0).
  { transitivity ((a1 * b2 - a2 * b1) * (alpha * a0 + beta * b0 + gamma * c0) +
                  (a2 * b0 - a0 * b2) * (alpha * a1 + beta * b1 + gamma * c1) +
                  (a0 * b1 - a1 * b0) * (alpha * a2 + beta * b2 + gamma * c2));
      [unfold D; ring | rewrite H0, H1, H2; ring]. }
  assert (D0 : D = 0).
  { destruct Habc as [Ha | [Hb | Hg]].
    - destruct (Rmult_integral _ _ A); [contradiction | assumption].
    - destruct (Rmult_integral _ _ B); [contradiction | assumption].
    - destruct (Rmult_integral _ _ G); [contradiction | assumption]. }
  rewrite D0. apply Rabs_R0.
Qed.

Lemma cell_update_volume3_dependent_witness :
  (1 <> 0 \/ 1 <> 0 \/ -1 <> 0) /\
  vadd (vadd (vscale 1 (row [1;2;3; 4;5;6; 5;7;9] 0))
             (vscale 1 (row [1;2;3; 4;5;6; 5;7;9] 1)))
       (vscale (-1) (row [1;2;3; 4;5;6; 5;7;9] 2)) = vzero /\
  volume (cell_update line1 [1;2;3; 4;5;6; 5;7;9] (repeat 0 9) 3) = 0.
Proof.
  assert (Hdep : vadd (vadd (vscale 1 (row [1;2;3; 4;5;6; 5;7;9] 0))
                            (vscale 1 (row [1;2;3; 4;5;6; 5;7;9] 1)))
                      (vscale (-1) (row [1;2;3; 4;5;6; 5;7;9] 2)) = vzero)
    by (apply arr3_eq; unfold row, at_; simpl; ring).
  split; [left; lra | split; [exact Hdep |]].
  apply (cell_update_volume3_dependent line1 [1;2;3; 4;5;6; 5;7;9] (repeat 0 9) 1 1 (-1)).
  - left; lra.
  - exact Hdep.
Defined.

(** X11: for [nvec = 1] and a non-zero row 0, the volume (the length of
    row 0) times [gspacings[0]] is 1. *)
Theorem cell_update_volume1_gspacing (c : cell_type R) (rv gv : list R) :
  row rv 0 <> vzero ->
  volume (cell_update c rv gv 1) * nth 0 (gspacings (cell_update c rv gv 1)) 0 = 1.
Proof.
  intros Hz. cbn -[sqrt].
  set (s := at_ rv 0 * at_ rv 0 + at_ rv 1 * at_ rv 1 + at_ rv 2 * at_ rv 2).
  assert (P : 0 < s).
  { destruct (Rlt_dec 0 s) as [P | P]; [exact P |].
    exfalso. apply Hz. unfold s in P.
    pose proof (Rle_0_sqr (at_ rv 0)); pose proof (Rle_0_sqr (at_ rv 1));
      pose proof (Rle_0_sqr (at_ rv 2)). unfold Rsqr in *.
    apply arr3_eq; unfold row, vzero; simpl; nra. }
  pose proof (sqrt_lt_R0 s P). field. lra.
Qed.

Lemma cell_update_volume1_gspacing_witness :
  row [3;4;0; 0;0;0; 0;0;0] 0 <> vzero /\
  volume (cell_update line1 [3;4;0; 0;0;0; 0;0;0] (repeat 0 9) 1) *
  nth 0 (gspacings (cell_update line1 [3;4;0; 0;0;0; 0;0;0] (repeat 0 9) 1)) 0 = 1.
Proof.
  assert (N : row [3;4;0; 0;0;0; 0;0;0] 0 <> vzero).
  { intros E. apply (f_equal e0) in E. unfold row, at_ in E; simpl in E. lra. }
  split; [exact N |]. apply cell_update_volume1_gspacing. exact N.
Defined.

Lemma cell_update_volume2_witness :
  (2 <> 0 \/ -1 <> 0) /\
  vadd (vscale 2 (row [1;2;3; 2;4;6; 0;0;0] 0))
       (vscale (-1) (row [1;2;3; 2;4;6; 0;0;0] 1)) = vzero /\
  volume (cell_update line1 [1;2;3; 2;4;6; 0;0;0] (repeat 0 9) 2) = 0.
Proof.
  assert (Hdep : vadd (vscale 2 (row [1;2;3; 2;4;6; 0;0;0] 0))
                      (vscale (-1) (row [1;2;3; 2;4;6; 0;0;0] 1)) = vzero)
    by (apply arr3_eq; unfold row, at_; simpl; ring).
  split; [left; lra | split; [exact Hdep |]].
  apply (proj2 (cell_update_volume2 line1 [1;2;3; 2;4;6; 0;0;0] (repeat 0 9)) 2 (-1)).
  - left; lra.
  - exact Hdep.
Defined.

(** *** Read kernels on an out-of-range [nvec] *)

(** X12: [cell_mic], [cell_to_center] and [cell_add_vec] test [nvec]
    against 0, 1 and 2 only, so any other value (negative, or above 3)
    makes them act on all three directions, exactly as [nvec = 3]. *)
Theorem read_kernels_other_nvec (c : cell_type R) (n : Z)
  (d cart : arr3 R) (center r : arr3 Z) :
  n <> 0%Z -> n <> 1%Z -> n <> 2%Z ->
  cell_mic d (with_nvec c n) = cell_mic d (with_nvec c 3) /\
  cell_to_center cart (with_nvec c n) center =
    cell_to_center cart (with_nvec c 3) center /\
  cell_add_vec d (with_nvec c n) r = cell_add_vec d (with_nvec c 3) r.
Proof.
  intros H0 H1 H2.
  apply Z.eqb_neq in H0, H1, H2.
  unfold cell_mic, cell_mic_trace, cell_to_center, cell_add_vec, with_nvec; cbn [nvec].
  rewrite H0, H1, H2. repeat split; reflexivity.
Qed.

Lemma read_kernels_other_nvec_witness :
  (-1 <> 0)%Z /\ (-1 <> 1)%Z /\ (-1 <> 2)%Z /\
  cell_mic (A3 0.7 0 0) (with_nvec line1 (-1)) =
    cell_mic (A3 0.7 0 0) (with_nvec line1 3) /\
  cell_to_center (A3 0.7 0 0) (with_nvec line1 (-1)) (A3 0 0 0)%Z =
    cell_to_center (A3 0.7 0 0) (with_nvec line1 3) (A3 0 0 0)%Z /\
  cell_add_vec (A3 0.7 0 0) (with_nvec line1 (-1)) (A3 1 1 1)%Z =
    cell_add_vec (A3 0.7 0 0) (with_nvec line1 3) (A3 1 1 1)%Z.
Proof.
  split; [lia | split; [lia | split; [lia |]]].
  apply read_kernels_other_nvec; lia.
Defined.

(** *** Composition of lattice translations *)

(** X13: two calls of [cell_add_vec] with integer vectors [r] then [s]
    give one call with [r + s], for every [nvec]. *)
Theorem cell_add_vec_compose (d : arr3 R) (c : cell_type R) (r s : arr3 Z) :
  cell_add_vec (cell_add_vec d c r) c s = cell_add_vec d c (zadd3 r s).
Proof.
  unfold cell_add_vec, zadd3.
  destruct (nvec c =? 0)%Z; [reflexivity |].
  destruct (nvec c =? 1)%Z; [| destruct (nvec c =? 2)%Z];
    apply arr3_eq; cbn [e0 e1 e2]; rewrite ?plus_IZR; ring.
Qed.

(** X14: for any cell (no duality between [rvecs] and [gvecs] needed),
    [cell_mic] only moves [delta] by an integer combination of the active
    rows of [rvecs]: adding that combination back gives [delta]. *)
Theorem cell_mic_lattice_shift (d : arr3 R) (c : cell_type R) :
  exists r : arr3 Z, cell_add_vec (cell_mic d c) c r = d.
Proof.
  exists (snd (cell_mic_trace d c)).
  unfold cell_add_vec, cell_mic, cell_mic_trace.
  destruct (nvec c =? 0)%Z; [reflexivity |].
  destruct (nvec c =? 1)%Z; [| destruct (nvec c =? 2)%Z];
    cbn [fst snd e0 e1 e2]; destruct d; apply arr3_eq; cbn [e0 e1 e2]; ring.
Qed.
